(** * AIAgent: the task ledger of the on-chain AI agent

    A shallow embedding of [contract.sol] (Solidity ^0.8.19) and the
    properties of its three entry points [createTask], [completeTask]
    and [getTask], followed by the two pieces of the off-chain service
    that the specification describes on top of them: the truncating
    Result Submitter and the Query Service's [getTask].

    Conventions of the embedding:
    - [uint256] and [address] values are integers of [Z]; arithmetic is
      checked, as in Solidity 0.8: [taskCounter++] fails with
      [Panic(0x11)] instead of wrapping around;
    - a Solidity [string] is a byte string, here [string];
    - [mapping(uint256 => Task)] is a finite map read through a total
      lookup: a key never written reads as the zero-valued [Task];
    - emitted events are appended to a log kept beside the storage;
    - a contract function is a computation in a state-and-failure monad
      that keeps the state reached when it failed, and a transaction
      discards that state (the EVM rolls a reverted call back). *)

From stdpp Require Import base gmap strings list fin_maps.
From Stdlib Require Import ZArith Lia.

Open Scope Z_scope.

Module AIAgent.

(** ** Data *)

Definition address := Z.

(** [type(uint256).max] *)
Definition MAX_UINT256 : Z := 2 ^ 256 - 1.

(** [struct Task { uint256 id; string topic; string result; address requester; }] *)
Record Task := Build_Task {
  id : Z;
  topic : string;
  result : string;
  requester : address
}.

(** The value every storage slot of type [Task] has before it is written. *)
Definition zeroTask : Task := Build_Task 0 "" "" 0.

#[export] Instance Task_inhabited : Inhabited Task := populate zeroTask.

#[export] Instance Task_eq_dec : EqDecision Task.
Proof. solve_decision. Defined.

(** [event TaskCreated(uint256 id, string topic, address requester);]
    [event TaskCompleted(uint256 id, string result);] *)
Inductive Event :=
| TaskCreated (_id : Z) (_topic : string) (_requester : address)
| TaskCompleted (_id : Z) (_result : string).

#[export] Instance Event_eq_dec : EqDecision Event.
Proof. solve_decision. Defined.

(** Storage ([taskCounter], [tasks]) and the event log. *)
Record State := Build_State {
  taskCounter : Z;
  tasks : gmap Z Task;
  events : list Event
}.

(** The state of a freshly deployed contract. *)
Definition init : State := Build_State 0 ∅ [].

(** ** The execution monad *)

Inductive error :=
| Revert (msg : string)
| Panic (code : Z).

(** [Fail e s] keeps the state [s] in which the failure happened. *)
Inductive outcome (A : Type) :=
| Ok (a : A) (s : State)
| Fail (e : error) (s : State).
Arguments Ok {A} a s.
Arguments Fail {A} e s.

Definition M (A : Type) : Type := State → outcome A.

#[export] Instance M_ret : MRet M := λ A a s, Ok a s.

#[export] Instance M_bind : MBind M := λ A B f m s,
  match m s with
  | Ok a s' => f a s'
  | Fail e s' => Fail e s'
  end.

Definition gets {A} (f : State → A) : M A := λ s, Ok (f s) s.
Definition modify (f : State → State) : M unit := λ s, Ok () (f s).
Definition fail {A} (e : error) : M A := λ s, Fail e s.

(** [require(cond, msg);] *)
Definition require (cond : bool) (msg : string) : M unit :=
  if cond then mret () else fail (Revert msg).

(** [emit ev;] *)
Definition emit (ev : Event) : M unit :=
  modify (λ s, Build_State (taskCounter s) (tasks s) (events s ++ [ev])).

(** [taskCounter++;] with the overflow check of Solidity 0.8. *)
Definition incr_taskCounter : M unit :=
  c ← gets taskCounter;
  if c <? MAX_UINT256
  then modify (λ s, Build_State (c + 1) (tasks s) (events s))
  else fail (Panic 17).

(** The value of [tasks[k]] in a state: the zero-valued [Task] for a key
    that was never written. *)
Definition slot (s : State) (k : Z) : Task := tasks s !!! k.

(** [tasks[k]] as an r-value. *)
Definition tasks_at (k : Z) : M Task := gets (λ s, slot s k).

(** [tasks[k] = t;] *)
Definition tasks_store (k : Z) (t : Task) : M unit :=
  modify (λ s, Build_State (taskCounter s) (<[k := t]> (tasks s)) (events s)).

(** [tasks[k].result = r;]: the other members of the slot are kept. *)
Definition tasks_store_result (k : Z) (r : string) : M unit :=
  t ← tasks_at k;
  tasks_store k (Build_Task (id t) (topic t) r (requester t)).

(** ** The contract functions *)

Definition createTask (sender : address) (_topic : string) : M unit :=
  incr_taskCounter;;
  c ← gets taskCounter;
  tasks_store c (Build_Task c _topic "" sender);;
  emit (TaskCreated c _topic sender).

Definition completeTask (_id : Z) (_result : string) : M unit :=
  t ← tasks_at _id;
  require (negb (id t =? 0)) "Task does not exist";;
  tasks_store_result _id _result;;
  emit (TaskCompleted _id _result).

(** [return tasks[_id];] *)
Definition getTask (_id : Z) : M Task := tasks_at _id.

(** ** Transactions *)

Inductive call :=
| CreateTask (sender : address) (_topic : string)
| CompleteTask (sender : address) (_id : Z) (_result : string).

Definition dispatch (c : call) : M unit :=
  match c with
  | CreateTask sender _topic => createTask sender _topic
  | CompleteTask _ _id _result => completeTask _id _result
  end.

(** A failed call is rolled back: the state is the one before it. *)
Definition transact (c : call) (s : State) : State :=
  match dispatch c s with
  | Ok _ s' => s'
  | Fail _ _ => s
  end.

Definition run (cs : list call) (s : State) : State :=
  fold_left (λ s c, transact c s) cs s.

Definition reachable (s : State) : Prop := ∃ cs, s = run cs init.

(** The number of [createTask] calls of a trace. *)
Definition is_create (c : call) : bool :=
  match c with CreateTask _ _ => true | CompleteTask _ _ _ => false end.

Definition count_creates (cs : list call) : nat :=
  length (filter (λ c, is_create c = true) cs).

(** The ids announced by the [TaskCreated] events of a log, oldest first. *)
Definition created_ids (evs : list Event) : list Z :=
  omap (λ ev, match ev with
              | TaskCreated i _ _ => Some i
              | TaskCompleted _ _ => None
              end) evs.

(** A task with id [i] has been created: the log holds its [TaskCreated]. *)
Definition created (s : State) (i : Z) : Prop :=
  ∃ t a, TaskCreated i t a ∈ events s.

(** The status the specification derives from a task record. *)
Inductive Status := Pending | Completed.

Definition status (t : Task) : Status :=
  if decide (result t = "") then Pending else Completed.

(** The result the log gives task [i]: the one of its latest
    [TaskCompleted] event, the empty string when it has none. *)
Definition logged_result (evs : list Event) (i : Z) : string :=
  fold_left (λ acc ev,
               match ev with
               | TaskCompleted j r => if decide (j = i) then r else acc
               | TaskCreated _ _ _ => acc
               end) evs "".

(** ** The off-chain service

    The Result Submitter and the Query Service of the specification
    live in the API server ([ai.py] in the README's project tree), which
    is not among the sources; what follows is modelled on the
    specification's text, on top of the contract functions above. *)




Inductive query_error :=
| NotFound
| LedgerError (e : error).

Inductive query_reply :=
| Found (t : Task)
| QueryFailed (e : query_error).

(** Modelled from the spec: [getTask(id)] of the Query Service (section
    4.4), whose code is missing from the sources: a pass-through read of
    the ledger that returns the record and fails with [NotFound] when
    the id is 0 or unknown, which the ledger shows by a returned record
    whose id is 0 (section 6). *)
Definition query_getTask (_id : Z) (s : State) : query_reply :=
  match getTask _id s with
  | Ok t _ => if id t =? 0 then QueryFailed NotFound else Found t
  | Fail e _ => QueryFailed (LedgerError e)
  end.

(** ** Equations of the contract functions *)

Section Equations.
Variable s : State.

Lemma createTask_ok sender _topic :
  taskCounter s < MAX_UINT256 →
  createTask sender _topic s =
    Ok () (Build_State (taskCounter s + 1)
             (<[taskCounter s + 1 :=
                  Build_Task (taskCounter s + 1) _topic "" sender]> (tasks s))
             (events s ++ [TaskCreated (taskCounter s + 1) _topic sender])).
Proof.
  intros Hlt. unfold createTask, incr_taskCounter, mbind, M_bind, gets. simpl.
  apply Z.ltb_lt in Hlt. rewrite Hlt. reflexivity.
Qed.

Lemma createTask_overflow sender _topic :
  MAX_UINT256 ≤ taskCounter s →
  createTask sender _topic s = Fail (Panic 17) s.
Proof.
  intros Hge. unfold createTask, incr_taskCounter, mbind, M_bind, gets. simpl.
  apply Z.ltb_ge in Hge. rewrite Hge. reflexivity.
Qed.

Lemma completeTask_ok _id _result :
  id (slot s _id) ≠ 0 →
  completeTask _id _result s =
    Ok () (Build_State (taskCounter s)
             (<[_id := Build_Task (id (slot s _id))
                         (topic (slot s _id)) _result
                         (requester (slot s _id))]> (tasks s))
             (events s ++ [TaskCompleted _id _result])).
Proof.
  intros Hid. unfold completeTask, tasks_at, mbind, M_bind, gets. simpl.
  apply Z.eqb_neq in Hid. rewrite Hid. reflexivity.
Qed.

Lemma completeTask_fail _id _result :
  id (slot s _id) = 0 →
  completeTask _id _result s = Fail (Revert "Task does not exist") s.
Proof.
  intros Hid. unfold completeTask, tasks_at, mbind, M_bind, gets. simpl.
  rewrite Hid. reflexivity.
Qed.
End Equations.

(** ** Traces *)

Lemma run_nil s : run [] s = s.
Proof. reflexivity. Qed.

Lemma run_snoc cs c s : run (cs ++ [c]) s = transact c (run cs s).
Proof. unfold run. rewrite fold_left_app. reflexivity. Qed.

Lemma run_app cs1 cs2 s : run (cs1 ++ cs2) s = run cs2 (run cs1 s).
Proof. unfold run. apply fold_left_app. Qed.

Lemma reachable_init : reachable init.
Proof. exists []. reflexivity. Qed.

Lemma reachable_transact c s : reachable s → reachable (transact c s).
Proof. intros [cs ->]. exists (cs ++ [c]). symmetry. apply run_snoc. Qed.

Lemma reachable_run cs s : reachable s → reachable (run cs s).
Proof. intros [cs0 ->]. exists (cs0 ++ cs). symmetry. apply run_app. Qed.

(** Induction over the reachable states, last call first. *)
Lemma reachable_ind (P : State → Prop) :
  P init →
  (∀ s c, reachable s → P s → P (transact c s)) →
  ∀ s, reachable s → P s.
Proof.
  intros Hinit Hstep s [cs ->].
  induction cs as [|c cs IH] using rev_ind.
  - exact Hinit.
  - rewrite run_snoc. apply Hstep; [by exists cs | exact IH].
Qed.

(** ** The representation invariant of the storage *)

Record wf (s : State) : Prop := {
  wf_counter : 0 ≤ taskCounter s ≤ MAX_UINT256;
  wf_stored : ∀ k t, tasks s !! k = Some t →
                (1 ≤ k ≤ taskCounter s) ∧ id t = k;
  wf_dense : ∀ k, 1 ≤ k ≤ taskCounter s → is_Some (tasks s !! k);
  wf_log : created_ids (events s) = seqZ 1 (taskCounter s)
}.

Lemma wf_init : wf init.
Proof.
  split; simpl.
  - unfold MAX_UINT256. lia.
  - intros k t H. by rewrite lookup_empty in H.
  - intros k Hk. lia.
  - reflexivity.
Qed.

Lemma created_ids_app l1 l2 :
  created_ids (l1 ++ l2) = created_ids l1 ++ created_ids l2.
Proof. unfold created_ids. apply omap_app. Qed.

Lemma wf_createTask sender _topic s s' :
  wf s → createTask sender _topic s = Ok () s' → wf s'.
Proof.
  intros [Hc Hst Hd Hl] Hrun.
  destruct (decide (taskCounter s < MAX_UINT256)) as [Hlt|Hge].
  - rewrite createTask_ok in Hrun by done. injection Hrun as <-.
    split; simpl.
    + lia.
    + intros k t. rewrite lookup_insert. case_decide as Hk.
      * intros [= <-]. simpl. lia.
      * intros Hkt. apply Hst in Hkt. lia.
    + intros k Hk. rewrite lookup_insert. case_decide as Hk'; [by eexists|].
      apply Hd. lia.
    + rewrite created_ids_app, Hl. simpl.
      rewrite (seqZ_app 1 (taskCounter s) 1) by lia.
      replace (1 + taskCounter s) with (taskCounter s + 1) by lia. reflexivity.
  - rewrite createTask_overflow in Hrun by lia. discriminate.
Qed.

Lemma wf_completeTask _id _result s s' :
  wf s → completeTask _id _result s = Ok () s' → wf s'.
Proof.
  intros [Hc Hst Hd Hl] Hrun.
  destruct (decide (id (slot s _id) = 0)) as [Hz|Hnz].
  - rewrite completeTask_fail in Hrun by done. discriminate.
  - rewrite completeTask_ok in Hrun by done. injection Hrun as <-.
    assert (is_Some (tasks s !! _id)) as [t0 Ht0].
    { destruct (tasks s !! _id) eqn:E; [by eexists|].
      unfold slot in Hnz. rewrite lookup_total_alt, E in Hnz. done. }
    split; simpl.
    + done.
    + intros k t. rewrite lookup_insert. case_decide as Hk.
      * intros [= <-]. simpl. subst k.
        unfold slot. rewrite lookup_total_alt, Ht0. simpl. by apply Hst.
      * apply Hst.
    + intros k Hk. rewrite lookup_insert. case_decide; [by eexists|]. by apply Hd.
    + rewrite created_ids_app, Hl. simpl. by rewrite app_nil_r.
Qed.

Lemma wf_transact c s : wf s → wf (transact c s).
Proof.
  intros Hwf. unfold transact.
  destruct (dispatch c s) as [[] s'|e s'] eqn:E; [|done].
  destruct c; simpl in E.
  - by eapply wf_createTask.
  - by eapply wf_completeTask.
Qed.

Lemma wf_run cs s : wf s → wf (run cs s).
Proof.
  intros Hwf. induction cs as [|c cs IH] using rev_ind; [done|].
  rewrite run_snoc. by apply wf_transact.
Qed.

Lemma reachable_wf s : reachable s → wf s.
Proof.
  apply reachable_ind; [apply wf_init|]. intros ? ? _. apply wf_transact.
Qed.

(** ** Consequences of the invariant *)

Lemma getTask_slot _id s : getTask _id s = Ok (slot s _id) s.
Proof. reflexivity. Qed.

Lemma slot_outside s k :
  wf s → ¬ (1 ≤ k ≤ taskCounter s) → slot s k = zeroTask.
Proof.
  intros Hwf Hk. unfold slot. rewrite lookup_total_alt.
  destruct (tasks s !! k) as [t|] eqn:E; [|done].
  apply (wf_stored s Hwf) in E. tauto.
Qed.

Lemma slot_inside s k :
  wf s → 1 ≤ k ≤ taskCounter s → id (slot s k) = k.
Proof.
  intros Hwf Hk. unfold slot. rewrite lookup_total_alt.
  destruct (wf_dense s Hwf k Hk) as [t Ht]. rewrite Ht. simpl.
  apply (wf_stored s Hwf) in Ht. tauto.
Qed.

Lemma slot_exists_iff s k :
  wf s → id (slot s k) ≠ 0 ↔ 1 ≤ k ≤ taskCounter s.
Proof.
  intros Hwf. split.
  - intros Hid. destruct (decide (1 ≤ k ≤ taskCounter s)) as [|Hout]; [done|].
    rewrite (slot_outside s k Hwf Hout) in Hid. done.
  - intros Hk. rewrite (slot_inside s k Hwf Hk). lia.
Qed.

Lemma elem_of_created_ids evs i :
  i ∈ created_ids evs ↔ ∃ t a, TaskCreated i t a ∈ evs.
Proof.
  unfold created_ids. rewrite list_elem_of_omap. split.
  - intros [[j t a|j r] [Hin Heq]]; [|done]. injection Heq as ->. eauto.
  - intros (t & a & Hin). exists (TaskCreated i t a). done.
Qed.

Lemma created_iff s i :
  wf s → created s i ↔ 1 ≤ i ≤ taskCounter s.
Proof.
  intros Hwf. unfold created.
  rewrite <- elem_of_created_ids, (wf_log s Hwf), elem_of_seqZ. lia.
Qed.

(** The counter along a trace. *)
Lemma taskCounter_transact_create sender _topic s :
  taskCounter s < MAX_UINT256 →
  taskCounter (transact (CreateTask sender _topic) s) = taskCounter s + 1.
Proof. intros Hlt. unfold transact. simpl. by rewrite createTask_ok. Qed.

Lemma taskCounter_transact_complete a _id _result s :
  taskCounter (transact (CompleteTask a _id _result) s) = taskCounter s.
Proof.
  unfold transact. simpl.
  destruct (decide (id (slot s _id) = 0)) as [Hz|Hnz].
  - by rewrite completeTask_fail.
  - by rewrite completeTask_ok.
Qed.

Lemma count_creates_snoc cs c :
  count_creates (cs ++ [c]) =
    (count_creates cs + if is_create c then 1 else 0)%nat.
Proof.
  unfold count_creates. rewrite filter_app, length_app. f_equal.
  destruct c; reflexivity.
Qed.

Lemma taskCounter_run cs :
  Z.of_nat (count_creates cs) ≤ MAX_UINT256 →
  taskCounter (run cs init) = Z.of_nat (count_creates cs).
Proof.
  induction cs as [|c cs IH] using rev_ind; [done|].
  rewrite count_creates_snoc, run_snoc. intros Hle.
  destruct c as [sender t|a i r]; simpl in *.
  - rewrite taskCounter_transact_create; rewrite IH; lia.
  - rewrite taskCounter_transact_complete, IH; lia.
Qed.

(** ** The claims about the ledger *)

(** C1. In every reachable state, [completeTask(id, result)] fails, with
    the message "Task does not exist", exactly when [id] is 0 or no task
    with that id has been created; otherwise it succeeds, the task's
    stored result is [result] and [TaskCompleted(id, result)] is the
    event it appends to the log. *)
Theorem completeTask_fails_iff_unknown s _id _result :
  reachable s →
  ((∃ e sf, completeTask _id _result s = Fail e sf) ↔
     (_id = 0 ∨ ¬ created s _id))
  ∧ (∀ e sf, completeTask _id _result s = Fail e sf →
       e = Revert "Task does not exist")
  ∧ (¬ (_id = 0 ∨ ¬ created s _id) →
       ∃ s', completeTask _id _result s = Ok () s'
         ∧ result (slot s' _id) = _result
         ∧ events s' = events s ++ [TaskCompleted _id _result]).
Proof.
  intros Hwf%reachable_wf.
  pose proof (created_iff s _id Hwf) as Hcr.
  pose proof (slot_exists_iff s _id Hwf) as Hex.
  destruct (decide (id (slot s _id) = 0)) as [Hz|Hnz].
  - assert (¬ (1 ≤ _id ≤ taskCounter s)) as Hout by tauto.
    rewrite completeTask_fail by done. split_and!.
    + split; [intros _; right; tauto | eauto].
    + by intros e sf [= <- _].
    + intros Hno. exfalso. apply Hno. right. tauto.
  - assert (1 ≤ _id ≤ taskCounter s) as Hin by tauto.
    rewrite completeTask_ok by done. split_and!.
    + split; [by intros (e & sf & ?) | intros [->|Hno]; [lia | tauto]].
    + by intros e sf.
    + intros _. eexists. split; [done|]. simpl. split; [|done].
      unfold slot. simpl. by rewrite lookup_total_insert_eq.
Qed.

Lemma completeTask_fails_iff_unknown_witness :
  reachable (run [CreateTask 7 "Web3 Integration"] init)
  ∧ ∃ s', completeTask 1 "Generated content..."
            (run [CreateTask 7 "Web3 Integration"] init) = Ok () s'
      ∧ result (slot s' 1) = "Generated content..."
      ∧ events s' = events (run [CreateTask 7 "Web3 Integration"] init)
                      ++ [TaskCompleted 1 "Generated content..."].
Proof.
  assert (reachable (run [CreateTask 7 "Web3 Integration"] init)) as Hr
    by (by eexists).
  split; [exact Hr|].
  apply (completeTask_fails_iff_unknown _ 1 "Generated content..." Hr).
  intros [H|H]; [lia|]. apply H. exists "Web3 Integration", 7.
  vm_compute. left.
Defined.

(** C2. After a trace holding [n] calls of [createTask] ([n] within
    [uint256]), the counter is [n], no task has id 0, the ids announced
    by the [TaskCreated] events are exactly [1, 2, ..., n] in this order
    (dense, increasing, none used twice), [tasks[i].id = i] for
    [1 <= i <= n], and every other key still reads as the zero record. *)
Theorem task_ids_dense cs :
  Z.of_nat (count_creates cs) ≤ MAX_UINT256 →
  taskCounter (run cs init) = Z.of_nat (count_creates cs)
  ∧ id (slot (run cs init) 0) = 0
  ∧ ¬ created (run cs init) 0
  ∧ created_ids (events (run cs init)) = seqZ 1 (Z.of_nat (count_creates cs))
  ∧ NoDup (created_ids (events (run cs init)))
  ∧ (∀ i, 1 ≤ i ≤ Z.of_nat (count_creates cs) →
       id (slot (run cs init) i) = i)
  ∧ (∀ i, ¬ (1 ≤ i ≤ Z.of_nat (count_creates cs)) →
       slot (run cs init) i = zeroTask).
Proof.
  intros Hle.
  assert (wf (run cs init)) as Hwf by (apply reachable_wf; by exists cs).
  pose proof (taskCounter_run cs Hle) as Hn.
  split_and!.
  - exact Hn.
  - rewrite (slot_outside _ 0 Hwf); [done | lia].
  - rewrite (created_iff _ 0 Hwf). lia.
  - by rewrite (wf_log _ Hwf), Hn.
  - rewrite (wf_log _ Hwf). apply NoDup_seqZ.
  - intros i Hi. apply (slot_inside _ i Hwf). lia.
  - intros i Hi. apply (slot_outside _ i Hwf). lia.
Qed.

Lemma task_ids_dense_witness :
  Z.of_nat (count_creates
              [CreateTask 7 "a"; CompleteTask 9 1 "r"; CreateTask 8 "b"])
    ≤ MAX_UINT256
  ∧ taskCounter
      (run [CreateTask 7 "a"; CompleteTask 9 1 "r"; CreateTask 8 "b"] init) = 2.
Proof.
  assert (Z.of_nat (count_creates
            [CreateTask 7 "a"; CompleteTask 9 1 "r"; CreateTask 8 "b"])
          ≤ MAX_UINT256) as Hle by (vm_compute; discriminate).
  split; [exact Hle|].
  exact (proj1 (task_ids_dense _ Hle)).
Defined.

(** C3. Below the [uint256] maximum of the counter, [createTask(topic)]
    called by [sender] succeeds and returns nothing; the counter is one
    more than before; the record stored under the new counter value has
    that value as id, the given topic, the empty result and [sender] as
    requester; the event appended is [TaskCreated(id, topic, sender)]. *)
Theorem createTask_spec s sender _topic :
  taskCounter s < MAX_UINT256 →
  ∃ s', createTask sender _topic s = Ok () s'
    ∧ taskCounter s' = taskCounter s + 1
    ∧ getTask (taskCounter s') s' =
        Ok (Build_Task (taskCounter s') _topic "" sender) s'
    ∧ events s' = events s ++ [TaskCreated (taskCounter s') _topic sender].
Proof.
  intros Hlt. rewrite createTask_ok by done. eexists. split; [done|].
  simpl. split_and!; [done| |done].
  rewrite getTask_slot. unfold slot. simpl.
  by rewrite lookup_total_insert_eq.
Qed.

Lemma createTask_spec_witness :
  taskCounter init < MAX_UINT256
  ∧ ∃ s', createTask 7 "Web3 Integration" init = Ok () s'
      ∧ taskCounter s' = taskCounter init + 1
      ∧ getTask (taskCounter s') s' =
          Ok (Build_Task (taskCounter s') "Web3 Integration" "" 7) s'
      ∧ events s' =
          events init ++ [TaskCreated (taskCounter s') "Web3 Integration" 7].
Proof.
  assert (taskCounter init < MAX_UINT256) as Hlt by reflexivity.
  split; [exact Hlt|]. exact (createTask_spec init 7 "Web3 Integration" Hlt).
Defined.

(** What one call does to a slot. *)
Lemma slot_transact_complete a _id _result s k :
  slot (transact (CompleteTask a _id _result) s) k =
    if decide (k = _id ∧ id (slot s _id) ≠ 0)
    then Build_Task (id (slot s k)) (topic (slot s k)) _result
           (requester (slot s k))
    else slot s k.
Proof.
  unfold transact. simpl.
  destruct (decide (id (slot s _id) = 0)) as [Hz|Hnz].
  - rewrite completeTask_fail by done. case_decide; [tauto|done].
  - rewrite completeTask_ok by done. unfold slot at 1. simpl.
    case_decide as Hk.
    + destruct Hk as [-> _]. by rewrite lookup_total_insert_eq.
    + rewrite lookup_total_insert_ne; [done|]. intros ->. tauto.
Qed.

Lemma slot_transact_create sender _topic s k :
  slot (transact (CreateTask sender _topic) s) k =
    if decide (k = taskCounter s + 1 ∧ taskCounter s < MAX_UINT256)
    then Build_Task k _topic "" sender
    else slot s k.
Proof.
  unfold transact. simpl.
  destruct (decide (taskCounter s < MAX_UINT256)) as [Hlt|Hge].
  - rewrite createTask_ok by done. unfold slot at 1. simpl.
    case_decide as Hk.
    + destruct Hk as [-> _]. by rewrite lookup_total_insert_eq.
    + rewrite lookup_total_insert_ne; [done|]. intros <-. tauto.
  - rewrite createTask_overflow by lia. case_decide; [tauto|done].
Qed.

(** An existing task keeps its id, topic and requester over one call. *)
Lemma fields_kept_transact c s i :
  wf s → id (slot s i) ≠ 0 →
  id (slot (transact c s) i) = id (slot s i)
  ∧ topic (slot (transact c s) i) = topic (slot s i)
  ∧ requester (slot (transact c s) i) = requester (slot s i).
Proof.
  intros Hwf Hex. apply (slot_exists_iff s i Hwf) in Hex.
  destruct c as [sender t|a j r].
  - rewrite slot_transact_create. case_decide; [lia|done].
  - rewrite slot_transact_complete. by case_decide.
Qed.

Lemma fields_kept_run cs s i :
  wf s → id (slot s i) ≠ 0 →
  id (slot (run cs s) i) = id (slot s i)
  ∧ topic (slot (run cs s) i) = topic (slot s i)
  ∧ requester (slot (run cs s) i) = requester (slot s i).
Proof.
  intros Hwf Hex. induction cs as [|c cs IH] using rev_ind; [done|].
  rewrite run_snoc. destruct IH as (Hi & Ht & Hr).
  pose proof (wf_run cs s Hwf) as Hwf'.
  destruct (fields_kept_transact c (run cs s) i Hwf') as (Hi' & Ht' & Hr');
    [congruence|].
  split_and!; congruence.
Qed.

(** C4. Once a task exists, no later sequence of calls changes its id,
    its topic or its requester; and a successful [completeTask(j, r)]
    leaves the counter alone, rewrites only the result member of
    [tasks[j]] and touches no other task. *)
Theorem task_fields_frame s i :
  reachable s → id (slot s i) ≠ 0 →
  (∀ cs, id (slot (run cs s) i) = id (slot s i)
         ∧ topic (slot (run cs s) i) = topic (slot s i)
         ∧ requester (slot (run cs s) i) = requester (slot s i))
  ∧ (∀ j r s', completeTask j r s = Ok () s' →
       taskCounter s' = taskCounter s
       ∧ slot s' j = Build_Task (id (slot s j)) (topic (slot s j)) r
                       (requester (slot s j))
       ∧ ∀ k, k ≠ j → slot s' k = slot s k).
Proof.
  intros Hwf%reachable_wf Hex. split.
  - intros cs. by apply fields_kept_run.
  - intros j r s' Hrun.
    destruct (decide (id (slot s j) = 0)) as [Hz|Hnz].
    + rewrite completeTask_fail in Hrun by done. discriminate.
    + rewrite completeTask_ok in Hrun by done. injection Hrun as <-.
      simpl. split_and!; [done| |].
      * unfold slot at 1. simpl. by rewrite lookup_total_insert_eq.
      * intros k Hk. unfold slot at 1. simpl.
        by rewrite lookup_total_insert_ne.
Qed.

Lemma task_fields_frame_witness :
  reachable (run [CreateTask 7 "a"] init)
  ∧ id (slot (run [CreateTask 7 "a"] init) 1) ≠ 0
  ∧ topic (slot (run [CompleteTask 9 1 "r"; CreateTask 8 "b"]
                   (run [CreateTask 7 "a"] init)) 1) = "a".
Proof.
  assert (reachable (run [CreateTask 7 "a"] init)) as Hr by (by eexists).
  assert (id (slot (run [CreateTask 7 "a"] init) 1) ≠ 0) as Hex
    by (vm_compute; discriminate).
  split_and!; [exact Hr | exact Hex |].
  destruct (task_fields_frame _ 1 Hr Hex) as [Hkeep _].
  destruct (Hkeep [CompleteTask 9 1 "r"; CreateTask 8 "b"]) as (_ & Ht & _).
  exact Ht.
Defined.

(** C5. On an existing task whose result is already non-empty,
    [completeTask(id, r2)] is not rejected: it succeeds and the stored
    result becomes [r2], the other members staying as they were. *)
Theorem completeTask_overwrites s _id r2 :
  id (slot s _id) ≠ 0 → result (slot s _id) ≠ "" →
  ∃ s', completeTask _id r2 s = Ok () s'
    ∧ getTask _id s' =
        Ok (Build_Task (id (slot s _id)) (topic (slot s _id)) r2
              (requester (slot s _id))) s'.
Proof.
  intros Hex _. rewrite completeTask_ok by done. eexists. split; [done|].
  rewrite getTask_slot. unfold slot at 1. simpl.
  by rewrite lookup_total_insert_eq.
Qed.

Lemma completeTask_overwrites_witness :
  id (slot (run [CreateTask 7 "a"; CompleteTask 9 1 "first"] init) 1) ≠ 0
  ∧ result (slot (run [CreateTask 7 "a"; CompleteTask 9 1 "first"] init) 1)
      ≠ ""
  ∧ ∃ s', completeTask 1 "second"
            (run [CreateTask 7 "a"; CompleteTask 9 1 "first"] init) = Ok () s'
      ∧ getTask 1 s' = Ok (Build_Task 1 "a" "second" 7) s'.
Proof.
  assert (id (slot (run [CreateTask 7 "a"; CompleteTask 9 1 "first"] init) 1)
          ≠ 0) as Hex by (vm_compute; discriminate).
  assert (result (slot (run [CreateTask 7 "a"; CompleteTask 9 1 "first"] init)
                    1) ≠ "") as Hres by (vm_compute; discriminate).
  split_and!; [exact Hex | exact Hres |].
  exact (completeTask_overwrites _ 1 "second" Hex Hres).
Defined.

(** *** Status *)

Lemma status_Completed t : status t = Completed ↔ result t ≠ "".
Proof. unfold status. case_decide; split; (done || congruence). Qed.

Lemma status_Pending t : status t = Pending ↔ result t = "".
Proof. unfold status. case_decide; split; (done || congruence). Qed.

(** The result member of a slot over one call. *)
Lemma result_transact c s i :
  wf s → id (slot s i) ≠ 0 →
  result (slot (transact c s) i) =
    match c with
    | CompleteTask _ j r => if decide (i = j) then r else result (slot s i)
    | CreateTask _ _ => result (slot s i)
    end.
Proof.
  intros Hwf Hex. destruct c as [sender t|a j r].
  - rewrite slot_transact_create. apply (slot_exists_iff s i Hwf) in Hex.
    case_decide; [lia|done].
  - rewrite slot_transact_complete.
    destruct (decide (i = j)) as [->|Hne].
    + rewrite decide_True; done.
    + rewrite decide_False; [done|tauto].
Qed.

(** C6, as the claim states it, fails: a second [completeTask] with the
    empty result puts a Completed task back to Pending. *)
Lemma completed_returns_to_pending :
  ¬ (∀ s c i, reachable s →
       status (slot s i) = Completed →
       status (slot (transact c s) i) = Completed).
Proof.
  intros H.
  specialize (H (run [CreateTask 7 "t"; CompleteTask 9 1 "out"] init)
                (CompleteTask 9 1 "") 1).
  assert (reachable (run [CreateTask 7 "t"; CompleteTask 9 1 "out"] init))
    as Hr by (by eexists).
  specialize (H Hr eq_refl). vm_compute in H. discriminate.
Qed.

(** C6, amended. An existing task is never deleted. Its status changes
    only by a [completeTask] call on its own id: from Pending to
    Completed by a call with a non-empty result, and every such call
    makes it Completed; from Completed to Pending only by a call with
    the empty result, so that a Completed task stays Completed along
    every trace without such a call. The ledger puts no limit on these
    calls: after any trace, [completeTask] on the task succeeds for every
    result, and with the empty result it puts the task back to Pending,
    whatever its status was. *)
Theorem status_lifecycle s i :
  reachable s → id (slot s i) ≠ 0 →
  (∀ cs, id (slot (run cs s) i) ≠ 0)
  ∧ (∀ a r, r ≠ "" →
       status (slot (transact (CompleteTask a i r) s) i) = Completed)
  ∧ (∀ c, status (slot s i) = Pending →
       status (slot (transact c s) i) = Completed →
       ∃ a r, c = CompleteTask a i r ∧ r ≠ "")
  ∧ (∀ c, status (slot s i) = Completed →
       status (slot (transact c s) i) = Pending →
       ∃ a, c = CompleteTask a i "")
  ∧ (∀ cs, status (slot s i) = Completed →
       (∀ a, CompleteTask a i "" ∉ cs) →
       status (slot (run cs s) i) = Completed)
  ∧ (∀ cs r, ∃ s', completeTask i r (run cs s) = Ok () s')
  ∧ (∀ a, status (slot (transact (CompleteTask a i "") s) i) = Pending)
  ∧ (∀ cs a, status (slot (run (cs ++ [CompleteTask a i ""]) s) i) = Pending).
Proof.
  intros Hwf%reachable_wf Hex.
  assert (∀ cs, id (slot (run cs s) i) ≠ 0) as Hkept.
  { intros cs. destruct (fields_kept_run cs s i Hwf Hex) as (-> & _). done. }
  assert (∀ st a, wf st → id (slot st i) ≠ 0 →
            status (slot (transact (CompleteTask a i "") st) i) = Pending)
    as Hback.
  { intros st a Hst Hi. rewrite status_Pending, result_transact by done.
    by rewrite decide_True. }
  split_and!; [..| | |].
  6: { intros cs r. rewrite completeTask_ok by apply Hkept. eauto. }
  6: { intros a. by apply Hback. }
  6: { intros cs a. rewrite run_snoc. apply Hback; [by apply wf_run|apply Hkept]. }
  - exact Hkept.
  - intros a r Hr. rewrite status_Completed, result_transact by done.
    by rewrite decide_True.
  - intros c. rewrite status_Pending, status_Completed.
    rewrite result_transact by done. intros Hp Hc.
    destruct c as [sender t|a j r]; [done|].
    case_decide as Hij; [subst j; eauto | done].
  - intros c. rewrite status_Pending, status_Completed.
    rewrite result_transact by done. intros Hc Hp.
    destruct c as [sender t|a j r]; [done|].
    case_decide as Hij; [subst j r; eauto | done].
  - intros cs Hc. induction cs as [|c cs IH] using rev_ind; [done|].
    intros Hno. rewrite run_snoc.
    assert (status (slot (run cs s) i) = Completed) as IH'.
    { apply IH. intros a Hin. apply (Hno a), elem_of_app. by left. }
    rewrite status_Completed in IH'. rewrite status_Completed.
    rewrite result_transact by (by apply wf_run || apply Hkept).
    destruct c as [sender t|a j r]; [done|].
    case_decide as Hij; [|done]. subst j. intros ->.
    apply (Hno a), elem_of_app. right. by apply list_elem_of_singleton.
Qed.

Lemma status_lifecycle_witness :
  reachable (run [CreateTask 7 "t"; CompleteTask 9 1 "out"] init)
  ∧ id (slot (run [CreateTask 7 "t"; CompleteTask 9 1 "out"] init) 1) ≠ 0
  ∧ id (slot (run [CreateTask 8 "u"]
                (run [CreateTask 7 "t"; CompleteTask 9 1 "out"] init)) 1) ≠ 0.
Proof.
  assert (reachable (run [CreateTask 7 "t"; CompleteTask 9 1 "out"] init))
    as Hr by (by eexists).
  assert (id (slot (run [CreateTask 7 "t"; CompleteTask 9 1 "out"] init) 1)
          ≠ 0) as Hex by (vm_compute; discriminate).
  split_and!; [exact Hr | exact Hex |].
  exact (proj1 (status_lifecycle _ 1 Hr Hex) [CreateTask 8 "u"]).
Defined.

(** X11. The ledger's [getTask] never fails. For an id that is 0 or was
    never created it returns the zero-valued record (id 0, empty topic,
    empty result, zero requester) and leaves the state as it is; a task
    that was created is returned with its own, non-zero, id. *)
Theorem getTask_unknown_zero s i :
  reachable s →
  (i = 0 ∨ ¬ created s i → getTask i s = Ok zeroTask s)
  ∧ (created s i → ∃ t, getTask i s = Ok t s ∧ id t = i ∧ i ≠ 0).
Proof.
  intros Hwf%reachable_wf. rewrite getTask_slot.
  pose proof (created_iff s i Hwf) as Hcr. split.
  - intros Hun. rewrite (slot_outside s i Hwf); [done|].
    destruct Hun as [->|Hno]; [lia|tauto].
  - intros Hin. apply Hcr in Hin. eexists. split; [done|].
    rewrite (slot_inside s i Hwf Hin). lia.
Qed.

Lemma getTask_unknown_zero_witness :
  reachable (run [CreateTask 7 "Web3 Integration"] init)
  ∧ getTask 999 (run [CreateTask 7 "Web3 Integration"] init) =
      Ok zeroTask (run [CreateTask 7 "Web3 Integration"] init).
Proof.
  assert (reachable (run [CreateTask 7 "Web3 Integration"] init)) as Hr
    by (by eexists).
  split; [exact Hr|].
  apply (proj1 (getTask_unknown_zero _ 999 Hr)). right.
  intros (t & a & Hin). vm_compute in Hin.
  apply list_elem_of_singleton in Hin. discriminate.
Defined.

(** C7. Through the Query Service, in every reachable state of the
    ledger, [getTask(id)] fails with [NotFound] for every id that is 0
    or for which no task was created, and only for those: a created
    task is returned, with its id. In particular [getTask(0)] fails
    with [NotFound] whatever was created. *)
Theorem query_getTask_NotFound s i :
  reachable s →
  (i = 0 ∨ ¬ created s i ↔ query_getTask i s = QueryFailed NotFound)
  ∧ query_getTask 0 s = QueryFailed NotFound
  ∧ (created s i →
       ∃ t, query_getTask i s = Found t ∧ t = slot s i ∧ id t = i).
Proof.
  intros Hwf%reachable_wf.
  assert (∀ k, ¬ (1 ≤ k ≤ taskCounter s) →
            query_getTask k s = QueryFailed NotFound) as Hout.
  { intros k Hk. unfold query_getTask. rewrite getTask_slot.
    by rewrite (slot_outside s k Hwf Hk). }
  assert (∀ k, 1 ≤ k ≤ taskCounter s →
            query_getTask k s = Found (slot s k)) as Hin.
  { intros k Hk. unfold query_getTask. rewrite getTask_slot.
    rewrite (slot_inside s k Hwf Hk).
    destruct (Z.eqb_spec k 0) as [->|_]; [lia|done]. }
  pose proof (created_iff s i Hwf) as Hcr. split_and!.
  - split.
    + intros [->|Hno]; apply Hout; [lia|tauto].
    + intros Hq. destruct (decide (1 ≤ i ≤ taskCounter s)) as [Hi|Hi].
      * rewrite (Hin i Hi) in Hq. discriminate.
      * right. tauto.
  - apply Hout. lia.
  - intros Hi%Hcr. exists (slot s i). split_and!; [by apply Hin|done|].
    by apply slot_inside.
Qed.

Lemma query_getTask_NotFound_witness :
  reachable (run [CreateTask 7 "Web3 Integration"] init)
  ∧ query_getTask 0 (run [CreateTask 7 "Web3 Integration"] init) =
      QueryFailed NotFound.
Proof.
  assert (reachable (run [CreateTask 7 "Web3 Integration"] init)) as Hr
    by (by eexists).
  split; [exact Hr|].
  exact (proj1 (proj2 (query_getTask_NotFound _ 999 Hr))).
Defined.

(** C8, as the claim states it, fails: [createTask("")] is not rejected
    and the task it stores has the empty topic. *)
Lemma empty_topic_is_recorded :
  createTask 7 "" init =
    Ok () (Build_State 1 {[ 1 := Build_Task 1 "" "" 7 ]} [TaskCreated 1 "" 7])
  ∧ ¬ (∀ s i, reachable s → id (slot s i) ≠ 0 → topic (slot s i) ≠ "").
Proof.
  split; [reflexivity|]. intros H.
  apply (H (run [CreateTask 7 ""] init) 1); [by eexists| |]; by vm_compute.
Qed.

(** C8, amended. [createTask] checks nothing about the topic: below the
    [uint256] maximum of the counter it accepts every topic, the empty
    one included, and the stored task's topic is the string supplied,
    byte for byte, after creation and after every later trace. *)
Theorem topic_stored_as_supplied s sender _topic :
  reachable s → taskCounter s < MAX_UINT256 →
  ∃ s', createTask sender _topic s = Ok () s'
    ∧ topic (slot s' (taskCounter s')) = _topic
    ∧ ∀ cs, topic (slot (run cs s') (taskCounter s')) = _topic.
Proof.
  intros Hr Hlt. pose proof (reachable_wf s Hr) as Hwf.
  pose proof (createTask_ok s sender _topic Hlt) as Hrun.
  eexists. split; [exact Hrun|].
  match type of Hrun with _ = Ok () ?st => set (s' := st) in * end.
  assert (slot s' (taskCounter s') =
          Build_Task (taskCounter s') _topic "" sender) as Hslot.
  { unfold slot, s'. simpl. by rewrite lookup_total_insert_eq. }
  assert (wf s') as Hwf' by (by eapply wf_createTask).
  assert (id (slot s' (taskCounter s')) ≠ 0) as Hex.
  { rewrite Hslot. simpl. destruct Hwf as [? _ _ _]. lia. }
  split; [by rewrite Hslot|].
  intros cs. destruct (fields_kept_run cs s' _ Hwf' Hex) as (_ & -> & _).
  by rewrite Hslot.
Qed.

Lemma topic_stored_as_supplied_witness :
  reachable init ∧ taskCounter init < MAX_UINT256
  ∧ ∃ s', createTask 7 "" init = Ok () s'
      ∧ topic (slot s' (taskCounter s')) = ""
      ∧ ∀ cs, topic (slot (run cs s') (taskCounter s')) = "".
Proof.
  assert (taskCounter init < MAX_UINT256) as Hlt by reflexivity.
  split_and!; [exact reachable_init | exact Hlt |].
  exact (topic_stored_as_supplied init 7 "" reachable_init Hlt).
Defined.

(** *** Result size *)




Section ResultSubmitter.
Variables (max_bytes : nat) (marker : string).
Hypothesis marker_fits : (String.length marker ≤ max_bytes)%nat.





End ResultSubmitter.


(** C10. A [completeTask] that fails has failed at its [require], with
    "Task does not exist", before any write: the state in which it
    stopped is the state it started from, and the state after the
    rolled-back transaction has the same counter, the same task records
    and the same event log, hence no [TaskCompleted] added. *)
Theorem completeTask_failure_atomic s a _id _result e sf :
  completeTask _id _result s = Fail e sf →
  e = Revert "Task does not exist"
  ∧ sf = s
  ∧ transact (CompleteTask a _id _result) s = s
  ∧ taskCounter (transact (CompleteTask a _id _result) s) = taskCounter s
  ∧ tasks (transact (CompleteTask a _id _result) s) = tasks s
  ∧ events (transact (CompleteTask a _id _result) s) = events s.
Proof.
  intros Hrun.
  assert (transact (CompleteTask a _id _result) s = s) as Hs
    by (unfold transact; simpl; by rewrite Hrun).
  rewrite Hs.
  destruct (decide (id (slot s _id) = 0)) as [Hz|Hnz].
  - rewrite completeTask_fail in Hrun by done. by injection Hrun as <- <-.
  - rewrite completeTask_ok in Hrun by done. discriminate.
Qed.

Lemma completeTask_failure_atomic_witness :
  completeTask 999 "r" (run [CreateTask 7 "t"] init) =
    Fail (Revert "Task does not exist") (run [CreateTask 7 "t"] init)
  ∧ transact (CompleteTask 9 999 "r") (run [CreateTask 7 "t"] init) =
      run [CreateTask 7 "t"] init.
Proof.
  assert (completeTask 999 "r" (run [CreateTask 7 "t"] init) =
          Fail (Revert "Task does not exist") (run [CreateTask 7 "t"] init))
    as Hrun by reflexivity.
  split; [exact Hrun|].
  exact (proj1 (proj2 (proj2
    (completeTask_failure_atomic _ 9 999 "r" _ _ Hrun)))).
Defined.

(** ** Further properties of the ledger *)

(** X1. [createTask] fails exactly when the counter has reached the
    [uint256] maximum; the failure is the arithmetic panic 0x11 raised
    by [taskCounter++] before anything is written, and the transaction
    leaves the state as it was. *)
Theorem createTask_fails_iff_overflow s sender _topic :
  ((∃ e sf, createTask sender _topic s = Fail e sf) ↔
     MAX_UINT256 ≤ taskCounter s)
  ∧ (∀ e sf, createTask sender _topic s = Fail e sf →
       e = Panic 17 ∧ sf = s ∧ transact (CreateTask sender _topic) s = s).
Proof.
  destruct (decide (taskCounter s < MAX_UINT256)) as [Hlt|Hge].
  - rewrite createTask_ok by done. split.
    + split; [by intros (e & sf & ?) | lia].
    + by intros e sf.
  - pose proof (createTask_overflow s sender _topic ltac:(lia)) as Hrun.
    rewrite Hrun. split.
    + split; [lia | eauto].
    + intros e sf [= <- <-]. split_and!; [done|done|].
      unfold transact. simpl. by rewrite Hrun.
Qed.

(** X2. Create, then complete: from a reachable state below the counter
    maximum, [createTask(topic)] by [a] followed by [completeTask] on
    the new id with [r] (by anyone) leaves a task that [getTask] returns
    as [{id, topic, r, a}]. *)
Theorem create_then_complete s a b _topic r :
  reachable s → taskCounter s < MAX_UINT256 →
  getTask (taskCounter s + 1)
    (run [CreateTask a _topic; CompleteTask b (taskCounter s + 1) r] s) =
  Ok (Build_Task (taskCounter s + 1) _topic r a)
    (run [CreateTask a _topic; CompleteTask b (taskCounter s + 1) r] s).
Proof.
  intros Hwf%reachable_wf Hlt. rewrite getTask_slot. f_equal.
  change (run [CreateTask a _topic; CompleteTask b (taskCounter s + 1) r] s)
    with (transact (CompleteTask b (taskCounter s + 1) r)
            (transact (CreateTask a _topic) s)).
  rewrite slot_transact_complete, !slot_transact_create.
  rewrite (decide_True (P := _ ∧ taskCounter s < _)) by done. simpl.
  rewrite decide_True; [done|]. destruct Hwf as [? _ _ _]. split; [done|lia].
Qed.

Lemma create_then_complete_witness :
  reachable init ∧ taskCounter init < MAX_UINT256
  ∧ getTask 1 (run [CreateTask 7 "Web3 Integration";
                    CompleteTask 9 1 "Generated content..."] init) =
      Ok (Build_Task 1 "Web3 Integration" "Generated content..." 7)
        (run [CreateTask 7 "Web3 Integration";
              CompleteTask 9 1 "Generated content..."] init).
Proof.
  assert (taskCounter init < MAX_UINT256) as Hlt by reflexivity.
  split_and!; [exact reachable_init | exact Hlt |].
  exact (create_then_complete init 7 9 "Web3 Integration"
           "Generated content..." reachable_init Hlt).
Defined.

Lemma logged_result_snoc evs ev i :
  logged_result (evs ++ [ev]) i =
    match ev with
    | TaskCompleted j r => if decide (j = i) then r else logged_result evs i
    | TaskCreated _ _ _ => logged_result evs i
    end.
Proof. unfold logged_result. by rewrite fold_left_app. Qed.

Lemma events_transact c s :
  events (transact c s) =
    events s ++
      match c with
      | CreateTask sender _topic =>
          if decide (taskCounter s < MAX_UINT256)
          then [TaskCreated (taskCounter s + 1) _topic sender] else []
      | CompleteTask _ _id _result =>
          if decide (id (slot s _id) ≠ 0)
          then [TaskCompleted _id _result] else []
      end.
Proof.
  unfold transact. destruct c as [sender t|a j r]; simpl; case_decide.
  - by rewrite createTask_ok.
  - rewrite createTask_overflow by lia. by rewrite app_nil_r.
  - by rewrite completeTask_ok.
  - rewrite completeTask_fail; [by rewrite app_nil_r|].
    by destruct (decide (id (slot s j) = 0)).
Qed.

(** X3. The storage agrees with the log: in every reachable state the
    stored result of every id is the result of the latest
    [TaskCompleted] event of that id, and empty when the log has none. *)
Theorem result_is_latest_logged s i :
  reachable s → result (slot s i) = logged_result (events s) i.
Proof.
  intros Hr. revert i. induction Hr as [|s c Hr IH] using reachable_ind.
  - done.
  - intros i. pose proof (reachable_wf s Hr) as Hwf.
    rewrite events_transact. destruct c as [sender t|a j r].
    + rewrite slot_transact_create.
      destruct (decide (taskCounter s < MAX_UINT256)) as [Hlt|Hge].
      * rewrite logged_result_snoc, <- IH.
        destruct (decide (i = taskCounter s + 1)) as [->|Hne].
        -- rewrite decide_True by done. simpl.
           rewrite (slot_outside s _ Hwf); [done|lia].
        -- rewrite decide_False; [done|tauto].
      * rewrite app_nil_r, <- IH. rewrite decide_False; [done|tauto].
    + rewrite slot_transact_complete.
      destruct (decide (id (slot s j) ≠ 0)) as [Hex|Hno].
      * rewrite logged_result_snoc, <- IH.
        destruct (decide (j = i)) as [->|Hne].
        -- by rewrite decide_True.
        -- rewrite decide_False; [done|]. intros [-> _]. done.
      * rewrite app_nil_r, <- IH. rewrite decide_False; [done|tauto].
Qed.

Lemma result_is_latest_logged_witness :
  reachable (run [CreateTask 7 "t"; CompleteTask 9 1 "a"; CompleteTask 9 1 "b"]
               init)
  ∧ result (slot (run [CreateTask 7 "t"; CompleteTask 9 1 "a";
                       CompleteTask 9 1 "b"] init) 1) = "b".
Proof.
  assert (reachable (run [CreateTask 7 "t"; CompleteTask 9 1 "a";
                          CompleteTask 9 1 "b"] init)) as Hr by (by eexists).
  split; [exact Hr|]. exact (result_is_latest_logged _ 1 Hr).
Defined.



(** X5. Nothing is ever taken back: along every trace, from every state,
    the counter does not decrease and the old event log is a prefix of
    the new one. *)
Theorem counter_and_log_grow cs s :
  taskCounter s ≤ taskCounter (run cs s)
  ∧ events s `prefix_of` events (run cs s).
Proof.
  induction cs as [|c cs [IHc IHe]] using rev_ind; [done|].
  rewrite run_snoc, events_transact. split.
  - destruct c as [sender t|a j r].
    + destruct (decide (taskCounter (run cs s) < MAX_UINT256)).
      * rewrite taskCounter_transact_create by done. lia.
      * unfold transact. simpl. rewrite createTask_overflow by lia. done.
    + by rewrite taskCounter_transact_complete.
  - by apply prefix_app_r.
Qed.

(** X6. A completion is logged only after the creation of its task: in
    the log of a reachable state every [TaskCompleted(i, r)] is preceded
    by a [TaskCreated] with the same id. *)
Theorem completed_after_created s l1 l2 i r :
  reachable s →
  events s = l1 ++ TaskCompleted i r :: l2 →
  i ∈ created_ids l1.
Proof.
  intros Hr. revert l1 l2.
  induction Hr as [|s c Hr IH] using reachable_ind; intros l1 l2.
  - simpl. intros Hnil. by destruct l1.
  - pose proof (reachable_wf s Hr) as Hwf. rewrite events_transact.
    set (new := match c with CreateTask _ _ => _ | _ => _ end).
    assert (new = [] ∨ ∃ ev, new = [ev] ∧
              (ev = TaskCompleted i r → i ∈ created_ids (events s)))
      as [->|(ev & -> & Hev)].
    { subst new. destruct c as [sender t|a j q]; case_decide; eauto.
      - right. eexists. split; [done|]. done.
      - right. eexists. split; [done|]. intros [= -> _].
        rewrite elem_of_created_ids. by apply created_iff, slot_exists_iff. }
    + rewrite app_nil_r. apply IH.
    + destruct l2 as [|x l2 _] using rev_ind.
      * intros [Heq Hlast]%app_inj_tail. rewrite <- Heq. by apply Hev.
      * rewrite app_comm_cons, app_assoc. intros [Heq _]%app_inj_tail.
        by eapply IH.
Qed.

Lemma completed_after_created_witness :
  reachable (run [CreateTask 7 "t"; CompleteTask 9 1 "r"] init)
  ∧ events (run [CreateTask 7 "t"; CompleteTask 9 1 "r"] init) =
      [TaskCreated 1 "t" 7] ++ TaskCompleted 1 "r" :: []
  ∧ 1 ∈ created_ids [TaskCreated 1 "t" 7].
Proof.
  assert (reachable (run [CreateTask 7 "t"; CompleteTask 9 1 "r"] init))
    as Hr by (by eexists).
  assert (events (run [CreateTask 7 "t"; CompleteTask 9 1 "r"] init) =
          [TaskCreated 1 "t" 7] ++ TaskCompleted 1 "r" :: []) as He
    by reflexivity.
  split_and!; [exact Hr | exact He |].
  exact (completed_after_created _ _ _ 1 "r" Hr He).
Defined.

Lemma tasks_transact_complete a _id _result s :
  tasks (transact (CompleteTask a _id _result) s) =
    if decide (id (slot s _id) ≠ 0)
    then <[_id := Build_Task (id (slot s _id)) (topic (slot s _id)) _result
                    (requester (slot s _id))]> (tasks s)
    else tasks s.
Proof.
  unfold transact. simpl. case_decide.
  - by rewrite completeTask_ok.
  - rewrite completeTask_fail; [done|].
    by destruct (decide (id (slot s _id) = 0)).
Qed.

(** X7. Submitting the same result twice is harmless for the storage:
    a second [completeTask(i, r)], by whoever, leaves the counter and
    every task record as the first one left them; only the log tells,
    by a second [TaskCompleted(i, r)] when the task exists. *)
Theorem completeTask_twice_same_storage a b i r s :
  taskCounter (run [CompleteTask a i r; CompleteTask b i r] s) =
    taskCounter (run [CompleteTask a i r] s)
  ∧ tasks (run [CompleteTask a i r; CompleteTask b i r] s) =
      tasks (run [CompleteTask a i r] s)
  ∧ events (run [CompleteTask a i r; CompleteTask b i r] s) =
      events (run [CompleteTask a i r] s) ++
        (if decide (id (slot s i) ≠ 0) then [TaskCompleted i r] else []).
Proof.
  change (run [CompleteTask a i r; CompleteTask b i r] s)
    with (transact (CompleteTask b i r) (transact (CompleteTask a i r) s)).
  change (run [CompleteTask a i r] s) with (transact (CompleteTask a i r) s).
  assert (id (slot (transact (CompleteTask a i r) s) i) = id (slot s i)) as Hid.
  { rewrite slot_transact_complete. by case_decide. }
  split_and!.
  - by rewrite !taskCounter_transact_complete.
  - rewrite (tasks_transact_complete b), Hid.
    case_decide as Hex; [|done].
    rewrite slot_transact_complete, decide_True by done. simpl.
    rewrite tasks_transact_complete, decide_True by done.
    by rewrite insert_insert_eq.
  - rewrite (events_transact (CompleteTask b i r)), Hid. done.
Qed.

(** X8. Completions of different tasks do not interfere: in either
    order they leave the same counter and the same task records. *)
Theorem completeTask_commute a b i j r q s :
  i ≠ j →
  taskCounter (run [CompleteTask a i r; CompleteTask b j q] s) =
    taskCounter (run [CompleteTask b j q; CompleteTask a i r] s)
  ∧ tasks (run [CompleteTask a i r; CompleteTask b j q] s) =
      tasks (run [CompleteTask b j q; CompleteTask a i r] s).
Proof.
  intros Hne.
  change (run [CompleteTask a i r; CompleteTask b j q] s)
    with (transact (CompleteTask b j q) (transact (CompleteTask a i r) s)).
  change (run [CompleteTask b j q; CompleteTask a i r] s)
    with (transact (CompleteTask a i r) (transact (CompleteTask b j q) s)).
  split; [by rewrite !taskCounter_transact_complete|].
  assert (slot (transact (CompleteTask a i r) s) j = slot s j) as Hj.
  { rewrite slot_transact_complete, decide_False; [done|]. intros [-> _]. done. }
  assert (slot (transact (CompleteTask b j q) s) i = slot s i) as Hi.
  { rewrite slot_transact_complete, decide_False; [done|]. intros [-> _]. done. }
  rewrite (tasks_transact_complete b j q (transact (CompleteTask a i r) s)).
  rewrite (tasks_transact_complete a i r (transact (CompleteTask b j q) s)).
  rewrite Hi, Hj, !tasks_transact_complete.
  destruct (decide (id (slot s i) ≠ 0)), (decide (id (slot s j) ≠ 0));
    [|done..].
  by apply insert_insert_ne.
Qed.

Lemma completeTask_commute_witness :
  1 ≠ 2
  ∧ tasks (run [CompleteTask 9 1 "r"; CompleteTask 9 2 "q"]
             (run [CreateTask 7 "a"; CreateTask 8 "b"] init)) =
      tasks (run [CompleteTask 9 2 "q"; CompleteTask 9 1 "r"]
               (run [CreateTask 7 "a"; CreateTask 8 "b"] init)).
Proof.
  assert (1 ≠ 2) as Hne by lia.
  split; [exact Hne|].
  exact (proj2 (completeTask_commute 9 9 1 2 "r" "q" _ Hne)).
Defined.

(** X9. The mapping holds one record per created task and nothing else:
    in a reachable state the keys of [tasks] are exactly [1..taskCounter]
    and their number is [taskCounter]. *)
Theorem tasks_keys s :
  reachable s →
  dom (tasks s) = list_to_set (seqZ 1 (taskCounter s))
  ∧ Z.of_nat (size (tasks s)) = taskCounter s.
Proof.
  intros Hwf%reachable_wf.
  assert (dom (tasks s) = list_to_set (seqZ 1 (taskCounter s))) as Hdom.
  { apply set_eq. intros k.
    rewrite elem_of_dom, elem_of_list_to_set, elem_of_seqZ. split.
    - intros [t Ht]. apply (wf_stored s Hwf) in Ht. lia.
    - intros Hk. apply (wf_dense s Hwf). lia. }
  split; [exact Hdom|].
  rewrite <- size_dom, Hdom, size_list_to_set by apply NoDup_seqZ.
  rewrite length_seqZ. destruct Hwf as [? _ _ _]. lia.
Qed.

Lemma tasks_keys_witness :
  reachable (run [CreateTask 7 "a"; CreateTask 8 "b"] init)
  ∧ Z.of_nat (size (tasks (run [CreateTask 7 "a"; CreateTask 8 "b"] init))) = 2.
Proof.
  assert (reachable (run [CreateTask 7 "a"; CreateTask 8 "b"] init)) as Hr
    by (by eexists).
  split; [exact Hr|]. exact (proj2 (tasks_keys _ Hr)).
Defined.

(** X10. A result changes only by [completeTask] on its own id: along a
    trace without such a call the result read for id [i] stays what it
    was, whatever else is created or completed; a task created on the
    way stays with its empty result. *)
Theorem result_kept_without_own_completeTask cs s i :
  reachable s →
  (∀ a r, CompleteTask a i r ∉ cs) →
  result (slot (run cs s) i) = result (slot s i).
Proof.
  intros Hwf%reachable_wf. induction cs as [|c cs IH] using rev_ind; [done|].
  intros Hno. rewrite run_snoc, <- IH.
  2: { intros a r Hin. apply (Hno a r), elem_of_app. by left. }
  pose proof (wf_run cs s Hwf) as Hwf'.
  destruct c as [sender t|a j r].
  - rewrite slot_transact_create. case_decide as Hi; [|done].
    destruct Hi as [-> _]. simpl.
    rewrite (slot_outside _ _ Hwf'); [done|lia].
  - rewrite slot_transact_complete. case_decide as Hi; [|done].
    destruct Hi as [-> _]. exfalso.
    apply (Hno a r), elem_of_app. right. by apply list_elem_of_singleton.
Qed.

Lemma result_kept_without_own_completeTask_witness :
  reachable (run [CreateTask 7 "a"; CompleteTask 9 1 "r"] init)
  ∧ (∀ a r, CompleteTask a 1 r ∉ [CreateTask 8 "b"; CompleteTask 9 2 "q"])
  ∧ result (slot (run [CreateTask 8 "b"; CompleteTask 9 2 "q"]
                    (run [CreateTask 7 "a"; CompleteTask 9 1 "r"] init)) 1) =
      result (slot (run [CreateTask 7 "a"; CompleteTask 9 1 "r"] init) 1).
Proof.
  assert (reachable (run [CreateTask 7 "a"; CompleteTask 9 1 "r"] init))
    as Hr by (by eexists).
  assert (∀ a r, CompleteTask a 1 r ∉ [CreateTask 8 "b"; CompleteTask 9 2 "q"])
    as Hno.
  { intros a r Hin. apply elem_of_cons in Hin as [Heq|Hin]; [discriminate|].
    apply list_elem_of_singleton in Hin. discriminate. }
  split_and!; [exact Hr | exact Hno |].
  exact (result_kept_without_own_completeTask _ _ 1 Hr Hno).
Defined.

End AIAgent.
